(** * arcgis-rest-js: the [chunk] batching utility

    A shallow embedding of [chunk<T>(array: T[], size: number)] and of the
    part of [Array.prototype.slice] it relies on, followed by the properties
    of the partitioning it computes.

    The source is a [for] loop whose counter [i] and step [size] are
    JavaScript numbers.  The loop is embedded over an interface of numbers
    ([Number] below) that offers exactly the operations the loop uses, so
    that facts that do not depend on [size] hold for every representation of
    numbers.  The instance [number] is the one the proofs about sizes use: the
    integer-valued numbers together with [NaN], [+Infinity] and [-Infinity].
    The instance [double] is IEEE 754 binary64 itself, with its rounding: it
    has every value a size can take, fractions included.

    Arrays are objects: [slice] and the literal [[]] make new ones and [push]
    changes one in place.  [chunk_heap] is [chunk] on a heap of arrays, for
    what depends on that.

    A [for] loop need not finish, so the loop takes a bound on the number of
    guard evaluations ([fuel]) and returns [None] when the bound is reached
    before the guard fails. *)

From Stdlib Require Import List ZArith Lia Bool QArith Qround.
From Stdlib Require String.
From Stdlib Require Import SpecFloat.
Import ListNotations.
Import String.StringSyntax.

Delimit Scope string_scope with string.

Local Open Scope nat_scope.

(** ** Numbers *)

(** The result of the abstract operation ToIntegerOrInfinity. *)
Inductive IntegerOrInfinity : Type :=
| Finite (z : Z)
| PlusInfinity
| MinusInfinity.

(** What [chunk] needs from a number: the literal [0], the value of
    [array.length], [+], [<] and the conversion [slice] applies to its
    arguments. *)
Class Number (num : Type) : Type := {
  zero : num;
  of_length : nat -> num;
  add : num -> num -> num;
  lt : num -> num -> bool;
  ToIntegerOrInfinity : num -> IntegerOrInfinity
}.

(** Integer-valued numbers and the three values that are not finite.  Sums of
    integers are exact here; in the source they are exact up to 2^53.  With a
    positive [size] the loop adds [size] to a counter other than [0] only
    when [size < array.length], and an array has fewer than 2^32 elements, so
    every sum the loop then computes is exact in the source as well. *)
Inductive number : Type :=
| Num (z : Z)
| NaN
| PosInfinity
| NegInfinity.

Definition number_add (a b : number) : number :=
  match a, b with
  | NaN, _ | _, NaN => NaN
  | PosInfinity, NegInfinity | NegInfinity, PosInfinity => NaN
  | PosInfinity, _ | _, PosInfinity => PosInfinity
  | NegInfinity, _ | _, NegInfinity => NegInfinity
  | Num x, Num y => Num (x + y)
  end.

Definition number_lt (a b : number) : bool :=
  match a, b with
  | NaN, _ | _, NaN => false
  | Num x, Num y => (x <? y)%Z
  | NegInfinity, NegInfinity => false
  | NegInfinity, _ => true
  | _, NegInfinity => false
  | PosInfinity, _ => false
  | Num _, PosInfinity => true
  end.

Definition number_to_integer (a : number) : IntegerOrInfinity :=
  match a with
  | NaN => Finite 0
  | Num z => Finite z
  | PosInfinity => PlusInfinity
  | NegInfinity => MinusInfinity
  end.

#[export] Instance number_Number : Number number := {
  zero := Num 0;
  of_length n := Num (Z.of_nat n);
  add := number_add;
  lt := number_lt;
  ToIntegerOrInfinity := number_to_integer
}.

(** A positive integer size, as a number. *)
Definition int (n : nat) : number := Num (Z.of_nat n).

(** ** Array.prototype.slice *)

(** Steps 4-5 and 7-8 of [slice]: an index relative to the end when
    negative, clamped to [0 .. len]. *)
Definition relative_index (len : Z) (r : IntegerOrInfinity) : Z :=
  match r with
  | MinusInfinity => 0
  | Finite z => if (z <? 0)%Z then Z.max (len + z) 0 else Z.min z len
  | PlusInfinity => len
  end.

Section Chunk.

Context {T : Type} {num : Type} `{Number num}.

(** [array.slice(start, end)]: the [max(final - k, 0)] elements from
    position [k] on. *)
Definition slice (array : list T) (start end_ : num) : list T :=
  let len := Z.of_nat (length array) in
  let k := relative_index len (ToIntegerOrInfinity start) in
  let final := relative_index len (ToIntegerOrInfinity end_) in
  let count := Z.max (final - k) 0 in
  firstn (Z.to_nat count) (skipn (Z.to_nat k) array).

(** ** chunk *)

(** [for (let i = ...; i < array.length; i += size) chunks.push(array.slice(i, i + size));]
    followed by [return chunks]; [None] when [fuel] guard evaluations were
    not enough. *)
Fixpoint loop (fuel : nat) (array : list T) (size : num)
         (i : num) (chunks : list (list T)) : option (list (list T)) :=
  match fuel with
  | O => None
  | S fuel' =>
      if lt i (of_length (length array))
      then loop fuel' array size (add i size)
                (chunks ++ [slice array i (add i size)])
      else Some chunks
  end.

Definition chunk (fuel : nat) (array : list T) (size : num)
  : option (list (list T)) :=
  if length array =? 0 then Some []
  else loop fuel array size zero [].

End Chunk.

(** [chunk(array, size)] returns [chunks]. *)
Definition returns {T num : Type} `{Number num}
           (array : list T) (size : num) (chunks : list (list T)) : Prop :=
  exists fuel, chunk fuel array size = Some chunks.

(** ** Completions *)

(** The error the specification names for a size that is not a positive
    integer. *)
Inductive error : Type :=
| InvalidArgument.

(** How a call completes: by [return] or by [throw]. *)
Inductive completion (T : Type) : Type :=
| Normal (chunks : list (list T))
| Throw (e : error).

Arguments Normal {T} chunks.
Arguments Throw {T} e.

(** The completion of a call of [chunk].  The body contains no [throw], and
    [slice] and [push] complete normally on an array, so a call that finishes
    completes with the value of one of the two [return] statements. *)
Definition chunk_call {T num : Type} `{Number num}
           (fuel : nat) (array : list T) (size : num)
  : option (completion T) :=
  match chunk fuel array size with
  | Some chunks => Some (Normal chunks)
  | None => None
  end.

(** [ceil(n / size)], over the rationals. *)
Definition ceil_div (n size : nat) : Z :=
  Qceiling (inject_Z (Z.of_nat n) / inject_Z (Z.of_nat size))%Q.


(** ** Numbers as they are: binary64 *)

(** A number: zero, infinity, NaN, or [(-1)^s * m * 2^e]. *)
Definition double : Type := spec_float.

(** The number nearest to [m * 2^e]. *)
Definition double_of (m e : Z) : double := binary_normalize 53 1024 m e false.

(** The integer part of [m * 2^e]. *)
Definition truncate (m : positive) (e : Z) : Z :=
  match e with
  | Z0 => Zpos m
  | Zpos p => Z.shiftl (Zpos m) e
  | Zneg p => Z.shiftr (Zpos m) (Zpos p)
  end.

(** ToIntegerOrInfinity: NaN and the zeros to 0, the others truncated
    towards zero. *)
Definition double_to_integer (a : double) : IntegerOrInfinity :=
  match a with
  | S754_nan => Finite 0
  | S754_zero _ => Finite 0
  | S754_infinity false => PlusInfinity
  | S754_infinity true => MinusInfinity
  | S754_finite s m e => Finite (cond_Zopp s (truncate m e))
  end.

#[export] Instance double_Number : Number double := {
  zero := S754_zero false;
  of_length n := double_of (Z.of_nat n) 0;
  add := SFadd 53 1024;
  lt := SFltb;
  ToIntegerOrInfinity := double_to_integer
}.




(** ** Arrays as objects *)

(** An array is known by its place in the heap. *)
Definition ref : Type := nat.

(** What an array holds at an index: a value of the element type, or an
    array. *)
Inductive entry (T : Type) : Type :=
| Value (x : T)
| Array (r : ref).

Arguments Value {T} x.
Arguments Array {T} r.

Definition heap (T : Type) : Type := list (list (entry T)).

(** A new array, after the ones there are. *)
Definition alloc {T : Type} (h : heap T) (a : list (entry T)) : ref * heap T :=
  (length h, h ++ [a]).

Fixpoint update {A : Type} (n : nat) (x : A) (l : list A) : list A :=
  match l, n with
  | [], _ => []
  | _ :: l', O => x :: l'
  | y :: l', S n' => y :: update n' x l'
  end.

(** [r.push(e)]: the array at [r] is changed where it is. *)
Definition push {T : Type} (h : heap T) (r : ref) (e : entry T)
  : option (heap T) :=
  match nth_error h r with
  | Some a => Some (update r (a ++ [e]) h)
  | None => None
  end.

Section ChunkHeap.

Context {T : Type} {num : Type} `{Number num}.

(** The loop of [chunk], [array] and [chunks] being references.  [None] also
    when a reference is to no array, which the types of the source exclude. *)
Fixpoint loop_heap (fuel : nat) (h : heap T) (array : ref) (size i : num)
         (chunks : ref) : option (ref * heap T) :=
  match fuel with
  | O => None
  | S fuel' =>
      match nth_error h array with
      | None => None
      | Some a =>
          if lt i (of_length (length a))
          then
            let (s, h1) := alloc h (slice a i (add i size)) in
            match push h1 chunks (Array s) with
            | Some h2 => loop_heap fuel' h2 array size (add i size) chunks
            | None => None
            end
          else Some (chunks, h)
      end
  end.

(** [chunk] on the heap: the reference it returns and the heap it leaves. *)
Definition chunk_heap (fuel : nat) (h : heap T) (array : ref) (size : num)
  : option (ref * heap T) :=
  match nth_error h array with
  | None => None
  | Some a =>
      if length a =? 0 then Some (alloc h [])
      else
        let (chunks, h1) := alloc h [] in
        loop_heap fuel h1 array size zero chunks
  end.

End ChunkHeap.

(** The arrays that the entries [es] refer to. *)
Fixpoint read_arrays {T : Type} (h : heap T) (es : list (entry T))
  : option (list (list (entry T))) :=
  match es with
  | [] => Some []
  | Array r :: es' =>
      match nth_error h r, read_arrays h es' with
      | Some a, Some l => Some (a :: l)
      | _, _ => None
      end
  | Value _ :: _ => None
  end.

(** The structure of an array of arrays: what is in the arrays it refers
    to. *)
Definition read_chunks {T : Type} (h : heap T) (r : ref)
  : option (list (list (entry T))) :=
  match nth_error h r with
  | Some es => read_arrays h es
  | None => None
  end.

(** What the loop on the heap keeps true: [array] holds [a], and [c] is
    another array, holding references to arrays that hold [acc]. *)
Definition represents {T : Type} (h : heap T) (array : ref)
           (a : list (entry T)) (c : ref) (acc : list (list (entry T))) : Prop :=
  nth_error h array = Some a /\
  c <> array /\
  exists refs,
    nth_error h c = Some (map Array refs) /\
    Forall2 (fun r l => nth_error h r = Some l /\ r <> c) refs acc.

(** ** Loop invariants, for a positive integer size *)

(** After [k] turns the counter is [k * size], the last chunk pushed starts
    inside the array, and chunk [j] is the [size] elements (or fewer, at the
    end of the array) from position [j * size]. *)
Definition shape_inv {T : Type} (array : list T) (size : nat)
           (i : number) (chunks : list (list T)) : Prop :=
  i = int (length chunks * size) /\
  (0 < length chunks -> (length chunks - 1) * size < length array) /\
  forall j, j < length chunks ->
            nth_error chunks j = Some (firstn size (skipn (j * size) array)).

(** The chunks pushed so far are the part of the array before the counter. *)
Definition concat_inv {T : Type} (array : list T)
           (i : number) (chunks : list (list T)) : Prop :=
  exists m, i = int m /\ concat chunks = firstn m array.

(** The shape of the result for a positive integer size: just enough chunks
    to cover the array, chunk [j] starting at position [j * size]. *)
Definition has_shape {T : Type} (size : nat) (array : list T)
           (r : list (list T)) : Prop :=
  length array <= length r * size /\
  (0 < length r -> (length r - 1) * size < length array) /\
  forall j, j < length r ->
            nth_error r j = Some (firstn size (skipn (j * size) array)).

(** * items/add.ts

    [addItemJsonData], [addItemData] and [addItemResource] build a URL, put
    their payload into [requestOptions.params] and hand both to [request].
    [getPortalUrl], [determineOwner] and [request] are defined elsewhere:
    the first two are taken as parameters, a result [None] standing for a
    call that throws, and a call of [request] is recorded as the outcome
    [Requested url], its second argument being the options object in the
    state the function leaves it in. *)

(** ** Values and objects *)

(** The values the functions move around: payloads of type [any] and optional
    strings.  An object, file or blob is known by its identity. *)
Inductive value : Type :=
| undefined
| string_value (s : String.string)
| boolean_value (b : bool)
| reference (r : nat).

(** An object: its own properties, in the order of their creation. *)
Definition object : Type := list (String.string * value).

(** [k in o], with the value. *)
Fixpoint object_get (k : String.string) (o : object) : option value :=
  match o with
  | [] => None
  | (k', v) :: o' => if String.eqb k' k then Some v else object_get k o'
  end.

(** Defining the property [k]: an existing property keeps its place and
    takes the new value, a new one comes last. *)
Fixpoint object_set (k : String.string) (v : value) (o : object) : object :=
  match o with
  | [] => [(k, v)]
  | (k', v') :: o' =>
      if String.eqb k' k then (k', v) :: o' else (k', v') :: object_set k v o'
  end.

(** [{ ...target, ...source }]: the properties of [source] defined one
    after the other on [target]; nothing when [source] is [undefined]. *)
Definition object_spread (target : object) (source : option object) : object :=
  match source with
  | None => target
  | Some src => fold_left (fun acc kv => object_set (fst kv) (snd kv) acc) src target
  end.

(** An object has each of its keys once. *)
Definition well_formed (o : object) : Prop := NoDup (map fst o).

(** What becomes of a call. *)
Inductive outcome : Type :=
| Thrown
| Requested (url : String.string).

Section Add.

(** Whatever else the options carry (authentication, portal, owner). *)
Variable Other : Type.

(** The properties of [requestOptions] that the functions read. *)
Record requestOptions : Type := {
  id : String.string;
  data : value;
  resource : value;
  name : value;
  content : value;
  private : option bool;
  params : option object;
  other : Other
}.

Variable getPortalUrl : requestOptions -> option String.string.
Variable determineOwner : requestOptions -> option String.string.

(** [requestOptions.params = p]. *)
Definition set_params (o : requestOptions) (p : object) : requestOptions :=
  {| id := id o; data := data o; resource := resource o; name := name o;
     content := content o; private := private o; params := Some p;
     other := other o |}.

(** [requestOptions.params[k]], when [params] is there and has [k]. *)
Definition param (k : String.string) (o : requestOptions) : option value :=
  match params o with
  | Some p => object_get k p
  | None => None
  end.

Definition params_well_formed (o : requestOptions) : Prop :=
  match params o with
  | Some p => well_formed p
  | None => True
  end.

Definition addItemJsonData (o : requestOptions) : outcome * requestOptions :=
  match determineOwner o with
  | None => (Thrown, o)
  | Some owner =>
      match getPortalUrl o with
      | None => (Thrown, o)
      | Some portal =>
          let url :=
            String.append portal
              (String.append "/content/users/"
                 (String.append owner
                    (String.append "/items/"
                       (String.append (id o) "/update"))))%string in
          let o' :=
            set_params o
              (object_spread (object_set "text"%string (data o) [])
                             (params o)) in
          (Requested url, o')
      end
  end.

Definition addItemData (o : requestOptions) : outcome * requestOptions :=
  match determineOwner o with
  | None => (Thrown, o)
  | Some owner =>
      match getPortalUrl o with
      | None => (Thrown, o)
      | Some portal =>
          let url :=
            String.append portal
              (String.append "/content/users/"
                 (String.append owner
                    (String.append "/items/"
                       (String.append (id o) "/update"))))%string in
          let o' :=
            set_params o
              (object_spread (object_set "file"%string (data o) [])
                             (params o)) in
          (Requested url, o')
      end
  end.

(** [requestOptions.private ? "private" : "inherit"]. *)
Definition access (o : requestOptions) : value :=
  match private o with
  | Some true => string_value "private"%string
  | Some false | None => string_value "inherit"%string
  end.

Definition addItemResource (o : requestOptions) : outcome * requestOptions :=
  match determineOwner o with
  | None => (Thrown, o)
  | Some owner =>
      match getPortalUrl o with
      | None => (Thrown, o)
      | Some portal =>
          let url :=
            String.append portal
              (String.append "/content/users/"
                 (String.append owner
                    (String.append "/items/"
                       (String.append (id o) "/addResources"))))%string in
          let o' :=
            set_params o
              (object_spread
                 (object_set "access"%string (access o)
                    (object_set "text"%string (content o)
                       (object_set "fileName"%string (name o)
                          (object_set "file"%string (resource o) []))))
                 (params o)) in
          (Requested url, o')
      end
  end.

End Add.

Arguments id {Other} _.
Arguments data {Other} _.
Arguments resource {Other} _.
Arguments name {Other} _.
Arguments content {Other} _.
Arguments private {Other} _.
Arguments params {Other} _.
Arguments other {Other} _.
Arguments set_params {Other} o p.
Arguments param {Other} k o.
Arguments params_well_formed {Other} o.
Arguments access {Other} o.
Arguments addItemJsonData {Other} getPortalUrl determineOwner o.
Arguments addItemData {Other} getPortalUrl determineOwner o.
Arguments addItemResource {Other} getPortalUrl determineOwner o.

(** The call of the documentation of [addItemResource], with an owner and a
    portal for the two helpers to return. *)
Definition example_portal (o : requestOptions unit) : option String.string :=
  Some "https://www.arcgis.com/sharing/rest"%string.

Definition example_owner (o : requestOptions unit) : option String.string :=
  Some "jsmith"%string.

Definition example_options : requestOptions unit :=
  {| id := "3ef"%string;
     data := reference 1;
     resource := reference 2;
     name := string_value "bigkahuna.jpg"%string;
     content := undefined;
     private := Some true;
     params := Some [("f"%string, string_value "json"%string)];
     other := tt |}.

(** * chunk, continued *)

(** ** The scenarios of the specification *)

Example chunk_5_2 :
  chunk 4 [1; 2; 3; 4; 5] (int 2) = Some [[1; 2]; [3; 4]; [5]].
Proof. reflexivity. Qed.

Example chunk_4_2 :
  chunk 3 [1; 2; 3; 4] (int 2) = Some [[1; 2]; [3; 4]].
Proof. reflexivity. Qed.

Example chunk_3_1 :
  chunk 4 [1; 2; 3] (int 1) = Some [[1]; [2]; [3]].
Proof. reflexivity. Qed.

Example chunk_3_10 :
  chunk 2 [1; 2; 3] (int 10) = Some [[1; 2; 3]].
Proof. reflexivity. Qed.

Example chunk_nan :
  chunk 2 [1; 2; 3] NaN = Some [[]].
Proof. reflexivity. Qed.

Example chunk_infinity :
  chunk 2 [1; 2; 3] PosInfinity = Some [[1; 2; 3]].
Proof. reflexivity. Qed.

Example chunk_zero_out_of_fuel :
  chunk 50 [1; 2; 3] (Num 0) = None.
Proof. reflexivity. Qed.

(** ** The loop, for every representation of numbers *)

Section Loop.

Context {T : Type} {num : Type} `{Number num}.

Variable array : list T.
Variable size : num.

Lemma loop_S (fuel : nat) (i : num) (chunks : list (list T)) :
  loop (S fuel) array size i chunks =
  if lt i (of_length (length array))
  then loop fuel array size (add i size)
            (chunks ++ [slice array i (add i size)])
  else Some chunks.
Proof. reflexivity. Qed.

(** More fuel does not change a result. *)
Lemma loop_fuel_mono (fuel fuel' : nat) (i : num) (chunks r : list (list T)) :
  fuel <= fuel' ->
  loop fuel array size i chunks = Some r ->
  loop fuel' array size i chunks = Some r.
Proof.
  revert fuel' i chunks.
  induction fuel as [|fuel IH]; intros fuel' i chunks Hle Hrun.
  - discriminate Hrun.
  - destruct fuel' as [|fuel']; [lia|].
    simpl in *.
    destruct (lt i (of_length (length array))).
    + apply IH; [lia | exact Hrun].
    + exact Hrun.
Qed.

(** The rule of the loop: a property of the counter and of the chunks pushed
    so far that the body preserves holds when the loop is left, together with
    the negation of the guard. *)
Lemma loop_rule (Inv : num -> list (list T) -> Prop) :
  (forall i chunks,
      Inv i chunks ->
      lt i (of_length (length array)) = true ->
      Inv (add i size) (chunks ++ [slice array i (add i size)])) ->
  forall fuel i chunks r,
    Inv i chunks ->
    loop fuel array size i chunks = Some r ->
    exists i', Inv i' r /\ lt i' (of_length (length array)) = false.
Proof.
  intros Hbody fuel.
  induction fuel as [|fuel IH]; intros i chunks r Hinv Hrun.
  - discriminate Hrun.
  - simpl in Hrun.
    destruct (lt i (of_length (length array))) eqn:Hguard.
    + eapply IH; [|exact Hrun]. apply Hbody; assumption.
    + injection Hrun as <-. exists i. split; assumption.
Qed.

Lemma chunk_fuel_mono (fuel fuel' : nat) (r : list (list T)) :
  fuel <= fuel' ->
  chunk fuel array size = Some r ->
  chunk fuel' array size = Some r.
Proof.
  unfold chunk. intros Hle.
  destruct (length array =? 0); [trivial|].
  apply loop_fuel_mono; assumption.
Qed.

(** At most one result, whatever the fuel. *)
Lemma returns_functional (r1 r2 : list (list T)) :
  returns array size r1 -> returns array size r2 -> r1 = r2.
Proof.
  intros [f1 H1] [f2 H2].
  apply chunk_fuel_mono with (fuel' := Nat.max f1 f2) in H1; [|lia].
  apply chunk_fuel_mono with (fuel' := Nat.max f1 f2) in H2; [|lia].
  congruence.
Qed.

End Loop.

(** ** Lists *)

Lemma firstn_add_skipn {A : Type} (m p : nat) (l : list A) :
  firstn (m + p) l = firstn m l ++ firstn p (skipn m l).
Proof.
  revert l. induction m as [|m IH]; intros l; [reflexivity|].
  destruct l as [|x l]; simpl.
  - now rewrite firstn_nil.
  - now rewrite IH.
Qed.

Lemma firstn_min_length {A : Type} (p : nat) (l : list A) :
  firstn (Nat.min p (length l)) l = firstn p l.
Proof.
  destruct (Nat.le_ge_cases p (length l)) as [Hle|Hge].
  - now rewrite Nat.min_l.
  - rewrite Nat.min_r by assumption.
    now rewrite !firstn_all2 by lia.
Qed.

(** ** slice on integers *)

(** Between two positions that are not negative, [slice] is [firstn] after
    [skipn]. *)
Lemma slice_int {T : Type} (array : list T) (m p : nat) :
  m <= length array ->
  slice array (int m) (add (int m) (int p)) = firstn p (skipn m array).
Proof.
  intros Hm. unfold slice, int. simpl.
  destruct (Z.ltb_spec (Z.of_nat m) 0) as [Hneg|_]; [lia|].
  destruct (Z.ltb_spec (Z.of_nat m + Z.of_nat p) 0) as [Hneg|_]; [lia|].
  replace (Z.to_nat (Z.min (Z.of_nat m) (Z.of_nat (length array)))) with m by lia.
  rewrite <- (firstn_min_length p), length_skipn.
  f_equal. lia.
Qed.

Lemma add_int (m p : nat) : add (int m) (int p) = int (m + p).
Proof. unfold int. simpl. now rewrite Nat2Z.inj_add. Qed.

Lemma lt_int (m n : nat) : lt (int m) (of_length n) = (m <? n).
Proof.
  unfold int. simpl.
  destruct (Z.ltb_spec (Z.of_nat m) (Z.of_nat n)), (Nat.ltb_spec m n);
    (reflexivity || lia).
Qed.

(** ** chunk with a positive integer size *)

Section Positive.

Context {T : Type}.

Variable array : list T.
Variable size : nat.
Hypothesis size_pos : 0 < size.

(** Each turn moves the counter forward by at least one, so the loop is
    left after at most [length array - m] turns. *)
Lemma loop_terminates (fuel m : nat) (chunks : list (list T)) :
  length array - m < fuel ->
  exists r, loop fuel array (int size) (int m) chunks = Some r.
Proof.
  revert m chunks.
  induction fuel as [|fuel IH]; intros m chunks Hfuel; [lia|].
  rewrite loop_S, lt_int.
  destruct (Nat.ltb_spec m (length array)) as [Hlt|Hge].
  - rewrite add_int. apply IH. lia.
  - eexists. reflexivity.
Qed.

Lemma chunk_terminates :
  exists r, chunk (S (length array)) array (int size) = Some r.
Proof.
  unfold chunk. destruct (length array =? 0); [eexists; reflexivity|].
  apply (loop_terminates (S (length array)) 0 []). lia.
Qed.

Lemma shape_inv_body (i : number) (chunks : list (list T)) :
  shape_inv array size i chunks ->
  lt i (of_length (length array)) = true ->
  shape_inv array size (add i (int size)) (chunks ++ [slice array i (add i (int size))]).
Proof.
  intros (Hi & Hlast & Hnth) Hguard. subst i.
  rewrite lt_int in Hguard. apply Nat.ltb_lt in Hguard.
  rewrite slice_int by lia. rewrite add_int.
  unfold shape_inv. rewrite length_app. simpl length.
  repeat split.
  - f_equal. lia.
  - intros _. replace (length chunks + 1 - 1) with (length chunks) by lia.
    exact Hguard.
  - intros j Hj.
    destruct (Nat.eq_dec j (length chunks)) as [->|Hne].
    + rewrite nth_error_app2 by lia. now rewrite Nat.sub_diag.
    + rewrite nth_error_app1 by lia. apply Hnth. lia.
Qed.

(** The chunks returned: there are just enough of them to cover the array,
    and chunk [j] starts at position [j * size]. *)
Lemma chunk_shape (fuel : nat) (r : list (list T)) :
  chunk fuel array (int size) = Some r ->
  length array <= length r * size /\
  (0 < length r -> (length r - 1) * size < length array) /\
  forall j, j < length r ->
            nth_error r j = Some (firstn size (skipn (j * size) array)).
Proof.
  unfold chunk. destruct (Nat.eqb_spec (length array) 0) as [Hempty|_].
  - intros [= <-]. simpl. repeat split; try lia.
  - intros Hrun.
    apply loop_rule with (Inv := shape_inv array size) in Hrun.
    + destruct Hrun as (i' & (Hi & Hlast & Hnth) & Hguard). subst i'.
      rewrite lt_int in Hguard. apply Nat.ltb_ge in Hguard.
      repeat split; assumption.
    + apply shape_inv_body.
    + unfold shape_inv. simpl. repeat split; try lia. 
Qed.

Lemma concat_inv_body (i : number) (chunks : list (list T)) :
  concat_inv array i chunks ->
  lt i (of_length (length array)) = true ->
  concat_inv array (add i (int size)) (chunks ++ [slice array i (add i (int size))]).
Proof.
  intros (m & -> & Hcat) Hguard.
  rewrite lt_int in Hguard. apply Nat.ltb_lt in Hguard.
  exists (m + size). split; [apply add_int|].
  rewrite concat_app, Hcat, slice_int by lia. simpl.
  now rewrite app_nil_r, firstn_add_skipn.
Qed.

Lemma chunk_concat (fuel : nat) (r : list (list T)) :
  chunk fuel array (int size) = Some r -> concat r = array.
Proof.
  unfold chunk. destruct (Nat.eqb_spec (length array) 0) as [Hempty|_].
  - intros [= <-]. destruct array; [reflexivity|discriminate].
  - intros Hrun.
    apply loop_rule with (Inv := concat_inv array) in Hrun.
    + destruct Hrun as (i' & (m & -> & Hcat) & Hguard).
      rewrite lt_int in Hguard. apply Nat.ltb_ge in Hguard.
      rewrite Hcat. now apply firstn_all2.
    + apply concat_inv_body.
    + exists 0. split; reflexivity.
Qed.

End Positive.

(** ** Rounding up *)

Lemma ceil_div_Zdiv (n size : nat) :
  0 < size ->
  ceil_div n size = (- ((- Z.of_nat n) / Z.of_nat size))%Z.
Proof.
  intros Hpos. unfold ceil_div, Qceiling, Qfloor.
  destruct size as [|s]; [lia|].
  unfold Qdiv, Qinv, inject_Z. simpl.
  now rewrite Z.mul_1_r.
Qed.

(** [ceil(n / size)] is the least [q] with [n <= q * size]. *)
Lemma ceil_div_unique (n size q : nat) :
  0 < size ->
  n <= q * size ->
  (0 < q -> (q - 1) * size < n) ->
  ceil_div n size = Z.of_nat q.
Proof.
  intros Hpos Hup Hlow.
  rewrite ceil_div_Zdiv by assumption.
  assert (Hq : ((- Z.of_nat n) / Z.of_nat size = - Z.of_nat q)%Z).
  { symmetry.
    apply Z.div_unique with (r := (Z.of_nat q * Z.of_nat size - Z.of_nat n)%Z).
    - left. destruct q as [|q]; nia.
    - nia. }
  rewrite Hq. lia.
Qed.

(** ** chunk with a size that is not a positive integer *)

Section Diverges.

Context {T : Type}.

Variable array : list T.

(** With a step that is zero or negative the counter never reaches
    [array.length]: the guard holds at every turn, whatever the fuel.  (The
    growth of [chunks] is not bounded here; an engine ends such a run when
    memory is exhausted, not by a [return].) *)
Lemma loop_not_positive (z : Z) (fuel : nat) (i : Z) (chunks : list (list T)) :
  (z <= 0)%Z ->
  (i < Z.of_nat (length array))%Z ->
  loop fuel array (Num z) (Num i) chunks = None.
Proof.
  intros Hz. revert i chunks.
  induction fuel as [|fuel IH]; intros i chunks Hi; [reflexivity|].
  rewrite loop_S. simpl lt.
  destruct (Z.ltb_spec i (Z.of_nat (length array))) as [_|Hge]; [|lia].
  apply IH. lia.
Qed.

Lemma loop_neg_infinity (fuel : nat) (chunks : list (list T)) :
  loop fuel array NegInfinity NegInfinity chunks = None.
Proof.
  revert chunks.
  induction fuel as [|fuel IH]; intros chunks; [reflexivity|].
  rewrite loop_S. simpl. apply IH.
Qed.

Lemma chunk_not_positive (z : Z) (fuel : nat) :
  (z <= 0)%Z -> array <> [] -> chunk fuel array (Num z) = None.
Proof.
  intros Hz Hne. unfold chunk.
  destruct array as [|x l] eqn:Harr; [congruence|].
  rewrite <- Harr. replace (length array =? 0) with false by now rewrite Harr.
  apply loop_not_positive; [assumption|]. rewrite Harr. simpl length. lia.
Qed.

Lemma chunk_neg_infinity (fuel : nat) :
  array <> [] -> chunk fuel array NegInfinity = None.
Proof.
  intros Hne. unfold chunk.
  destruct array as [|x l] eqn:Harr; [congruence|].
  rewrite <- Harr. replace (length array =? 0) with false by now rewrite Harr.
  destruct fuel as [|fuel]; [reflexivity|].
  rewrite loop_S. rewrite Harr at 1. simpl. apply loop_neg_infinity.
Qed.

(** [NaN] as a step: one empty chunk, then the guard [NaN < length] fails. *)
Lemma chunk_NaN (fuel : nat) :
  array <> [] -> 2 <= fuel -> chunk fuel array NaN = Some [[]].
Proof.
  intros Hne Hfuel. unfold chunk.
  destruct array as [|x l] eqn:Harr; [congruence|].
  rewrite <- Harr. replace (length array =? 0) with false by now rewrite Harr.
  destruct fuel as [|[|fuel]]; try lia.
  rewrite loop_S. rewrite Harr at 1. simpl lt. cbv iota.
  rewrite loop_S. simpl. unfold slice. simpl.
  rewrite Z.min_l by lia. reflexivity.
Qed.

(** [+Infinity] as a step: the whole array as one chunk. *)
Lemma chunk_pos_infinity (fuel : nat) :
  array <> [] -> 2 <= fuel -> chunk fuel array PosInfinity = Some [array].
Proof.
  intros Hne Hfuel. unfold chunk.
  destruct array as [|x l] eqn:Harr; [congruence|].
  rewrite <- Harr. replace (length array =? 0) with false by now rewrite Harr.
  destruct fuel as [|[|fuel]]; try lia.
  rewrite loop_S. rewrite Harr at 1. simpl lt. cbv iota.
  rewrite loop_S. simpl. unfold slice. simpl.
  rewrite Z.min_l by lia. simpl.
  now rewrite firstn_all2 by lia.
Qed.

End Diverges.

(** ** binary64: signs *)








(** ** binary64: array lengths *)







(** ** chunk with a size of any kind *)


Section DoubleSizes.

Context {T : Type}.

Variable array : list T.
Hypothesis array_nonempty : array <> [].
Hypothesis array_length : (Z.of_nat (length array) < 2 ^ 32)%Z.











End DoubleSizes.

(** ** chunk on the heap *)

Lemma nth_error_update_eq {A : Type} (n : nat) (x : A) (l : list A) :
  n < length l -> nth_error (update n x l) n = Some x.
Proof.
  revert n. induction l as [|y l IH]; intros [|n] Hn; simpl in *; try lia.
  - reflexivity.
  - apply IH. lia.
Qed.

Lemma nth_error_update_neq {A : Type} (n k : nat) (x : A) (l : list A) :
  k <> n -> nth_error (update n x l) k = nth_error l k.
Proof.
  revert n k. induction l as [|y l IH]; intros [|n] [|k] Hne; simpl;
    try reflexivity; try congruence.
  apply IH. congruence.
Qed.

Lemma length_update {A : Type} (n : nat) (x : A) (l : list A) :
  length (update n x l) = length l.
Proof.
  revert n. induction l as [|y l IH]; intros [|n]; simpl; try reflexivity.
  now rewrite IH.
Qed.

Lemma read_arrays_refs {T : Type} (h : heap T) (refs : list ref)
      (acc : list (list (entry T))) (P : ref -> Prop) :
  Forall2 (fun r l => nth_error h r = Some l /\ P r) refs acc ->
  read_arrays h (map Array refs) = Some acc.
Proof.
  induction 1 as [|r l refs acc [Hr _] _ IH]; simpl; [reflexivity|].
  now rewrite Hr, IH.
Qed.

Section HeapRefinement.

Context {T : Type} {num : Type} `{Number num}.

Variable array : ref.
Variable a : list (entry T).
Variable size : num.

(** A turn of the loop on the heap is a turn of the loop on the contents. *)
Lemma loop_heap_refines (fuel : nat) :
  forall (h : heap T) (i : num) (c : ref) (acc : list (list (entry T))),
    represents h array a c acc ->
    match loop fuel a size i acc with
    | Some cs =>
        exists h',
          loop_heap fuel h array size i c = Some (c, h') /\
          read_chunks h' c = Some cs /\
          length h <= length h' /\
          forall r, r < length h -> r <> c -> nth_error h' r = nth_error h r
    | None => loop_heap fuel h array size i c = None
    end.
Proof.
  induction fuel as [|fuel IH]; intros h i c acc Hrep; [reflexivity|].
  destruct Hrep as (Harr & Hc & refs & Hrefs & Hall).
  rewrite loop_S. simpl loop_heap. rewrite Harr.
  destruct (lt i (of_length (length a))).
  - unfold push.
    assert (Hclt : c < length h) by (apply nth_error_Some; congruence).
    assert (Halt : array < length h) by (apply nth_error_Some; congruence).
    rewrite nth_error_app1, Hrefs by exact Hclt.
    set (sl := slice a i (add i size)).
    set (h2 := update c (map Array refs ++ [Array (length h)]) (h ++ [sl])).
    assert (Hold : forall r, r < length h -> r <> c ->
                             nth_error h2 r = nth_error h r).
    { intros r Hr Hrc. unfold h2.
      rewrite nth_error_update_neq by exact Hrc.
      now apply nth_error_app1. }
    assert (Hrep2 : represents h2 array a c (acc ++ [sl])).
    { split; [|split; [exact Hc|]].
      - rewrite Hold by congruence. exact Harr.
      - exists (refs ++ [length h]). split.
        + unfold h2. rewrite nth_error_update_eq
            by (rewrite length_app; simpl; lia).
          now rewrite map_app.
        + apply Forall2_app.
          * eapply Forall2_impl; [|exact Hall].
            intros r l [Hr Hrc]. split; [|exact Hrc].
            rewrite Hold; [exact Hr|apply nth_error_Some; congruence|exact Hrc].
          * constructor; [|constructor]. split; [|lia].
            unfold h2. rewrite nth_error_update_neq by lia.
            rewrite nth_error_app2 by lia. now rewrite Nat.sub_diag. }
    specialize (IH h2 (add i size) c (acc ++ [sl]) Hrep2).
    fold sl.
    destruct (loop fuel a size (add i size) (acc ++ [sl])) as [cs|].
    + destruct IH as (h' & Hrun & Hread & Hlen & Hframe).
      exists h'. split; [exact Hrun|]. split; [exact Hread|].
      assert (Hlen2 : length h2 = S (length h))
        by (unfold h2; rewrite length_update, length_app; simpl; lia).
      split; [lia|].
      intros r Hr Hrc. rewrite Hframe by lia. now apply Hold.
    + exact IH.
  - exists h. split; [reflexivity|]. split.
    + unfold read_chunks. rewrite Hrefs.
      eapply read_arrays_refs. exact Hall.
    + split; [lia|]. intros; reflexivity.
Qed.

(** [chunk] on the heap computes what [chunk] on the contents of the array
    computes, in fresh arrays, and leaves every array there was as it is. *)
Lemma chunk_heap_refines (fuel : nat) (h : heap T) :
  nth_error h array = Some a ->
  match chunk fuel a size with
  | Some cs =>
      exists r h',
        chunk_heap fuel h array size = Some (r, h') /\
        read_chunks h' r = Some cs /\
        length h <= r /\
        forall r0, r0 < length h -> nth_error h' r0 = nth_error h r0
  | None => chunk_heap fuel h array size = None
  end.
Proof.
  intros Harr. unfold chunk, chunk_heap. rewrite Harr.
  assert (Halt : array < length h) by (apply nth_error_Some; congruence).
  destruct (length a =? 0).
  - exists (length h), (h ++ [[]]). split; [reflexivity|].
    split; [|split; [lia|]].
    + unfold read_chunks. rewrite nth_error_app2 by lia.
      now rewrite Nat.sub_diag.
    + intros r0 Hr0. now apply nth_error_app1.
  - unfold alloc.
    assert (Hrep : represents (h ++ [[]]) array a (length h) []).
    { split; [now rewrite nth_error_app1|]. split; [lia|].
      exists []. split; [|constructor].
      rewrite nth_error_app2 by lia. now rewrite Nat.sub_diag. }
    pose proof (loop_heap_refines fuel (h ++ [[]]) zero (length h) [] Hrep)
      as Hloop.
    destruct (loop fuel a size zero []) as [cs|]; [|exact Hloop].
    destruct Hloop as (h' & Hrun & Hread & Hlen & Hframe).
    exists (length h), h'. split; [exact Hrun|]. split; [exact Hread|].
    split; [lia|].
    intros r0 Hr0. rewrite Hframe by (try rewrite length_app; simpl; lia).
    now apply nth_error_app1.
Qed.

End HeapRefinement.

(** ** Sizes with a fractional part, and a call on the heap *)

Example chunk_two_and_a_half :
  chunk 4 [1; 2; 3; 4; 5] (double_of 5 (-1)) = Some [[1; 2]; [3; 4; 5]].
Proof. vm_compute. reflexivity. Qed.

Example chunk_a_half :
  chunk 7 [1; 2; 3] (double_of 1 (-1)) = Some [[]; [1]; []; [2]; []; [3]].
Proof. vm_compute. reflexivity. Qed.

Example chunk_double_two :
  chunk 4 [1; 2; 3; 4; 5] (double_of 2 0) = Some [[1; 2]; [3; 4]; [5]].
Proof. vm_compute. reflexivity. Qed.

Example chunk_minus_zero :
  chunk 50 [1; 2; 3] (S754_zero true) = None.
Proof. vm_compute. reflexivity. Qed.

Example chunk_heap_5_2 :
  chunk_heap 4 [[Value 7]; [Value 1; Value 2; Value 3]] 1 (int 2) =
  Some (2, [[Value 7]; [Value 1; Value 2; Value 3];
            [Array 3; Array 4]; [Value 1; Value 2]; [Value 3]]).
Proof. reflexivity. Qed.

(** ** The properties of the specification *)

(** C1: for an array of length [n > 0] and a positive integer [size],
    [chunk] returns chunks of which chunk [k], for every [k] with
    [k * size < n], holds exactly the elements at the positions
    [k * size .. min ((k + 1) * size) n - 1] of the array, in their order;
    there is no chunk [k] for a [k] with [n <= k * size]. *)
Theorem chunk_positions (T : Type) (array : list T) (size : nat) :
  0 < length array ->
  0 < size ->
  exists chunks,
    returns array (int size) chunks /\
    forall k,
      (k * size < length array ->
       exists ck,
         nth_error chunks k = Some ck /\
         length ck = Nat.min ((k + 1) * size) (length array) - k * size /\
         forall j, j < length ck ->
                   nth_error ck j = nth_error array (k * size + j)) /\
      (length array <= k * size -> nth_error chunks k = None).
Proof.
  intros _ Hsize.
  destruct (chunk_terminates array size Hsize) as [r Hr].
  exists r. split; [exists (S (length array)); exact Hr|].
  destruct (chunk_shape array size Hsize _ r Hr) as (Hcover & Hlast & Hnth).
  intros k. split.
  - intros Hk.
    assert (Hkr : k < length r) by nia.
    exists (firstn size (skipn (k * size) array)).
    split; [now apply Hnth|]. split.
    + rewrite length_firstn, length_skipn. lia.
    + intros j Hj. rewrite length_firstn in Hj.
      rewrite nth_error_firstn, nth_error_skipn.
      destruct (Nat.ltb_spec j size); [reflexivity|lia].
  - intros Hk. apply nth_error_None.
    destruct (Nat.le_gt_cases (length r) k) as [Hle|Hgt]; [exact Hle|].
    assert (Hr0 : 0 < length r) by lia.
    specialize (Hlast Hr0). nia.
Qed.

Lemma chunk_positions_witness :
  exists chunks,
    returns [1; 2; 3; 4; 5] (int 2) chunks /\
    forall k,
      (k * 2 < length [1; 2; 3; 4; 5] ->
       exists ck,
         nth_error chunks k = Some ck /\
         length ck = Nat.min ((k + 1) * 2) (length [1; 2; 3; 4; 5]) - k * 2 /\
         forall j, j < length ck ->
                   nth_error ck j = nth_error [1; 2; 3; 4; 5] (k * 2 + j)) /\
      (length [1; 2; 3; 4; 5] <= k * 2 -> nth_error chunks k = None).
Proof.
  apply (@chunk_positions nat [1; 2; 3; 4; 5] 2); simpl; lia.
Defined.

(** C2: for every array and every positive integer [size], the chunks that
    [chunk] returns, appended in order, are the array. *)
Theorem chunk_concat_identity (T : Type) (array : list T) (size : nat) :
  0 < size ->
  exists chunks,
    returns array (int size) chunks /\ concat chunks = array.
Proof.
  intros Hsize.
  destruct (chunk_terminates array size Hsize) as [r Hr].
  exists r. split; [exists (S (length array)); exact Hr|].
  exact (chunk_concat array size Hsize _ r Hr).
Qed.

Lemma chunk_concat_identity_witness :
  exists chunks,
    returns [1; 2; 3; 4; 5] (int 2) chunks /\ concat chunks = [1; 2; 3; 4; 5].
Proof.
  apply (@chunk_concat_identity nat [1; 2; 3; 4; 5] 2). lia.
Defined.

(** C3: for an array of length [n > 0] and a positive integer [size], the
    number of chunks that [chunk] returns is [ceil(n / size)]. *)
Theorem chunk_count (T : Type) (array : list T) (size : nat) :
  0 < length array ->
  0 < size ->
  exists chunks,
    returns array (int size) chunks /\
    Z.of_nat (length chunks) = ceil_div (length array) size.
Proof.
  intros _ Hsize.
  destruct (chunk_terminates array size Hsize) as [r Hr].
  exists r. split; [exists (S (length array)); exact Hr|].
  destruct (chunk_shape array size Hsize _ r Hr) as (Hcover & Hlast & _).
  symmetry. now apply ceil_div_unique.
Qed.

Lemma chunk_count_witness :
  exists chunks,
    returns [1; 2; 3; 4; 5] (int 2) chunks /\
    Z.of_nat (length chunks) = ceil_div (length [1; 2; 3; 4; 5]) 2.
Proof.
  apply (@chunk_count nat [1; 2; 3; 4; 5] 2); simpl; lia.
Defined.

(** C4: for a non-empty array of length [n] and a positive integer [size],
    every chunk but the last has exactly [size] elements, and the last has
    [n - size * floor(n / size)] elements when that is not zero and [size]
    elements when it is, which is between 1 and [size] elements. *)
Theorem chunk_sizes (T : Type) (array : list T) (size : nat) :
  0 < length array ->
  0 < size ->
  exists chunks,
    returns array (int size) chunks /\
    chunks <> [] /\
    forall k ck,
      nth_error chunks k = Some ck ->
      (S k < length chunks -> length ck = size) /\
      (S k = length chunks ->
       length ck =
         (if length array - size * (length array / size) =? 0
          then size
          else length array - size * (length array / size)) /\
       1 <= length ck <= size).
Proof.
  intros Hn Hsize.
  destruct (chunk_terminates array size Hsize) as [r Hr].
  exists r. split; [exists (S (length array)); exact Hr|].
  destruct (chunk_shape array size Hsize _ r Hr) as (Hcover & Hlast & Hnth).
  assert (Hr0 : 0 < length r) by nia.
  specialize (Hlast Hr0).
  split; [intros ->; simpl in Hr0; lia|].
  intros k ck Hk.
  assert (Hkr : k < length r) by (apply nth_error_Some; congruence).
  rewrite (Hnth k Hkr) in Hk. injection Hk as <-.
  rewrite length_firstn, length_skipn.
  split.
  - intros Hnotlast. nia.
  - intros Hislast.
    assert (Hlo : k * size < length array) by (replace k with (length r - 1) by lia; exact Hlast).
    assert (Hhi : length array <= (k + 1) * size) by (replace (k + 1) with (length r) by lia; exact Hcover).
    pose proof (Nat.div_mod_eq (length array) size) as Hdm.
    pose proof (Nat.mod_upper_bound (length array) size ltac:(lia)) as Hm.
    assert (Hq : length array / size = k \/
                 length array / size = k + 1 /\ length array mod size = 0) by nia.
    destruct Hq as [Hq|[Hq Hz]].
    + rewrite Hq.
      destruct (Nat.eqb_spec (length array - size * k) 0); lia.
    + rewrite Hq.
      destruct (Nat.eqb_spec (length array - size * (k + 1)) 0); lia.
Qed.

Lemma chunk_sizes_witness :
  exists chunks,
    returns [1; 2; 3; 4; 5] (int 2) chunks /\
    chunks <> [] /\
    forall k ck,
      nth_error chunks k = Some ck ->
      (S k < length chunks -> length ck = 2) /\
      (S k = length chunks ->
       length ck =
         (if length [1; 2; 3; 4; 5] - 2 * (length [1; 2; 3; 4; 5] / 2) =? 0
          then 2
          else length [1; 2; 3; 4; 5] - 2 * (length [1; 2; 3; 4; 5] / 2)) /\
       1 <= length ck <= 2).
Proof.
  apply (@chunk_sizes nat [1; 2; 3; 4; 5] 2); simpl; lia.
Defined.

(** C5: for every positive integer [size], [chunk] applied to the empty array
    returns the empty sequence of chunks, and nothing else: in particular not
    the sequence of one empty chunk. *)
Theorem chunk_empty (T : Type) (size : nat) :
  0 < size ->
  (forall fuel, chunk fuel (@nil T) (int size) = Some []) /\
  (forall chunks, returns (@nil T) (int size) chunks -> chunks = []) /\
  ~ returns (@nil T) (int size) [[]].
Proof.
  intros _.
  assert (Hall : forall fuel, chunk fuel (@nil T) (int size) = Some [])
    by reflexivity.
  split; [exact Hall|].
  split.
  - intros chunks [fuel Hrun]. rewrite Hall in Hrun. congruence.
  - intros [fuel Hrun]. rewrite Hall in Hrun. discriminate Hrun.
Qed.

Lemma chunk_empty_witness :
  (forall fuel, chunk fuel (@nil nat) (int 3) = Some []) /\
  (forall chunks, returns (@nil nat) (int 3) chunks -> chunks = []) /\
  ~ returns (@nil nat) (int 3) [[]].
Proof.
  apply (chunk_empty nat 3). lia.
Defined.




(** C7: for every array and every positive integer [size], a call of
    [chunk] finishes, after at most [length array + 1] evaluations of the
    loop guard, and completes by returning: no fuel makes it complete with
    an error. *)
Theorem chunk_terminates_normally (T : Type) (array : list T) (size : nat) :
  0 < size ->
  exists chunks,
    (forall fuel, length array < fuel ->
                  chunk_call fuel array (int size) = Some (Normal chunks)) /\
    (forall fuel e, chunk_call fuel array (int size) <> Some (Throw e)).
Proof.
  intros Hsize.
  destruct (chunk_terminates array size Hsize) as [r Hr].
  exists r. split.
  - intros fuel Hfuel. unfold chunk_call.
    rewrite (chunk_fuel_mono array (int size) (S (length array)) fuel r);
      [reflexivity|lia|exact Hr].
  - intros fuel e. unfold chunk_call.
    destruct (chunk fuel array (int size)); discriminate.
Qed.

Lemma chunk_terminates_normally_witness :
  exists chunks,
    (forall fuel, length [1; 2; 3; 4; 5] < fuel ->
                  chunk_call fuel [1; 2; 3; 4; 5] (int 2) = Some (Normal chunks)) /\
    (forall fuel e, chunk_call fuel [1; 2; 3; 4; 5] (int 2) <> Some (Throw e)).
Proof.
  apply (chunk_terminates_normally nat [1; 2; 3; 4; 5] 2). lia.
Defined.

(** C8: for every array and every positive integer [size], two calls of
    [chunk] on arrays that hold the same elements return arrays of the same
    structure, whatever else the heap of each call holds and wherever the
    arrays are: nothing but the elements and the size has a part in the
    result.  The arrays returned are new, and each call leaves all the arrays
    there were, its argument among them, as they are. *)
Theorem chunk_deterministic (T : Type) (h1 h2 : heap T) (array1 array2 : ref)
        (a : list (entry T)) (size fuel1 fuel2 : nat) :
  0 < size ->
  nth_error h1 array1 = Some a ->
  nth_error h2 array2 = Some a ->
  length a < fuel1 ->
  length a < fuel2 ->
  exists r1 h1' r2 h2' chunks,
    chunk_heap fuel1 h1 array1 (int size) = Some (r1, h1') /\
    chunk_heap fuel2 h2 array2 (int size) = Some (r2, h2') /\
    read_chunks h1' r1 = Some chunks /\
    read_chunks h2' r2 = Some chunks /\
    length h1 <= r1 /\
    length h2 <= r2 /\
    (forall r, r < length h1 -> nth_error h1' r = nth_error h1 r) /\
    (forall r, r < length h2 -> nth_error h2' r = nth_error h2 r).
Proof.
  intros Hsize Ha1 Ha2 Hfuel1 Hfuel2.
  destruct (chunk_terminates a size Hsize) as [cs Hcs].
  pose proof (chunk_heap_refines array1 a (int size) fuel1 h1 Ha1) as H1.
  pose proof (chunk_heap_refines array2 a (int size) fuel2 h2 Ha2) as H2.
  rewrite (chunk_fuel_mono a (int size) (S (length a)) fuel1 cs) in H1
    by (lia || exact Hcs).
  rewrite (chunk_fuel_mono a (int size) (S (length a)) fuel2 cs) in H2
    by (lia || exact Hcs).
  destruct H1 as (r1 & h1' & Hrun1 & Hread1 & Hfresh1 & Hframe1).
  destruct H2 as (r2 & h2' & Hrun2 & Hread2 & Hfresh2 & Hframe2).
  exists r1, h1', r2, h2', cs.
  repeat split; assumption.
Qed.

Lemma chunk_deterministic_witness :
  exists r1 h1' r2 h2' chunks,
    chunk_heap 4 [[Value 1; Value 2; Value 3]] 0 (int 2) = Some (r1, h1') /\
    chunk_heap 5 [[Value 9]; [Value 1; Value 2; Value 3]] 1 (int 2) =
    Some (r2, h2') /\
    read_chunks h1' r1 = Some chunks /\
    read_chunks h2' r2 = Some chunks /\
    length [[Value 1; Value 2; Value 3]] <= r1 /\
    length [[Value 9]; [Value 1; Value 2; Value 3]] <= r2 /\
    (forall r, r < length [[Value 1; Value 2; Value 3]] ->
               nth_error h1' r = nth_error [[Value 1; Value 2; Value 3]] r) /\
    (forall r, r < length [[Value 9]; [Value 1; Value 2; Value 3]] ->
               nth_error h2' r =
               nth_error [[Value 9]; [Value 1; Value 2; Value 3]] r).
Proof.
  apply (chunk_deterministic nat
           [[Value 1; Value 2; Value 3]]
           [[Value 9]; [Value 1; Value 2; Value 3]]
           0 1 [Value 1; Value 2; Value 3] 2 4 5);
    (reflexivity || (simpl; lia)).
Defined.

(** C9: on the empty array [chunk] returns the empty sequence for every size
    whatsoever, in every representation of numbers, and before the loop guard
    is evaluated once: no fuel is needed.  The call completes by returning,
    not with an error. *)
Theorem chunk_empty_any_size (T num : Type) `{Number num}
        (size : num) (fuel : nat) :
  chunk fuel (@nil T) size = Some [] /\
  chunk_call fuel (@nil T) size = Some (Normal []).
Proof.
  split; reflexivity.
Qed.

(** C10: for every array and every positive integer [size], no chunk that
    [chunk] returns is empty. *)
Theorem chunk_no_empty_chunk (T : Type) (array : list T) (size : nat) :
  0 < size ->
  exists chunks,
    returns array (int size) chunks /\
    forall ck, In ck chunks -> 1 <= length ck.
Proof.
  intros Hsize.
  destruct (chunk_terminates array size Hsize) as [r Hr].
  exists r. split; [exists (S (length array)); exact Hr|].
  destruct (chunk_shape array size Hsize _ r Hr) as (_ & Hlast & Hnth).
  intros ck Hin.
  apply In_nth_error in Hin. destruct Hin as [j Hj].
  assert (Hjr : j < length r) by (apply nth_error_Some; congruence).
  rewrite (Hnth j Hjr) in Hj. injection Hj as <-.
  rewrite length_firstn, length_skipn.
  assert (Hr0 : 0 < length r) by lia.
  specialize (Hlast Hr0). nia.
Qed.

Lemma chunk_no_empty_chunk_witness :
  exists chunks,
    returns [1; 2; 3; 4; 5] (int 2) chunks /\
    forall ck, In ck chunks -> 1 <= length ck.
Proof.
  apply (chunk_no_empty_chunk nat [1; 2; 3; 4; 5] 2). lia.
Defined.

(** ** More on chunk: how the result is built *)

Section Shape.

Context {T : Type}.

Variable size : nat.
Hypothesis size_pos : 0 < size.

(** What [chunk_shape] says of a result determines it. *)
Lemma has_shape_unique (array : list T) (r r' : list (list T)) :
  has_shape size array r -> has_shape size array r' -> r = r'.
Proof.
  intros (Hc & Hl & Hn) (Hc' & Hl' & Hn').
  assert (Hlen : length r = length r').
  { destruct (Nat.lt_trichotomy (length r) (length r')) as [Hlt|[Heq|Hgt]].
    - assert (H0 : 0 < length r') by lia. specialize (Hl' H0). nia.
    - exact Heq.
    - assert (H0 : 0 < length r) by lia. specialize (Hl H0). nia. }
  apply nth_error_ext. intros j.
  destruct (Nat.lt_ge_cases j (length r)) as [Hj|Hj].
  - rewrite Hn, Hn' by lia. reflexivity.
  - assert (H1 : nth_error r j = None) by (apply nth_error_None; lia).
    assert (H2 : nth_error r' j = None) by (apply nth_error_None; lia).
    congruence.
Qed.

Lemma has_shape_returns (array : list T) (r : list (list T)) :
  has_shape size array r -> chunk (S (length array)) array (int size) = Some r.
Proof.
  intros Hr.
  destruct (chunk_terminates array size size_pos) as [r0 Hr0].
  rewrite Hr0. f_equal.
  apply (has_shape_unique array); [|exact Hr].
  exact (chunk_shape array size size_pos _ r0 Hr0).
Qed.

Lemma returns_has_shape (array : list T) (r : list (list T)) :
  returns array (int size) r -> has_shape size array r.
Proof.
  intros [fuel Hr]. exact (chunk_shape array size size_pos fuel r Hr).
Qed.

End Shape.

(** X1: An array that fits in one chunk is returned as that one chunk. *)
Theorem chunk_single (T : Type) (array : list T) (size : nat) :
  0 < length array ->
  length array <= size ->
  returns array (int size) [array].
Proof.
  intros Hn Hsize. exists (S (length array)).
  apply has_shape_returns; [lia|].
  unfold has_shape. simpl length. repeat split; try lia.
  intros j Hj. replace j with 0 by lia. simpl.
  now rewrite firstn_all2.
Qed.

Lemma chunk_single_witness : returns [1; 2; 3] (int 10) [[1; 2; 3]].
Proof.
  apply (chunk_single nat [1; 2; 3] 10); simpl; lia.
Defined.

Lemma firstn_1_skipn {A : Type} (j : nat) (l : list A) :
  firstn 1 (skipn j l) =
  match nth_error l j with Some x => [x] | None => [] end.
Proof.
  revert l. induction j as [|j IH]; intros [|x l]; try reflexivity.
  simpl. apply IH.
Qed.

(** X2: With size 1 every element is a chunk of its own. *)
Theorem chunk_size_one (T : Type) (array : list T) :
  returns array (int 1) (map (fun x => [x]) array).
Proof.
  exists (S (length array)).
  apply has_shape_returns; [lia|].
  unfold has_shape. rewrite length_map. repeat split; try lia.
  intros j Hj. rewrite nth_error_map, Nat.mul_1_r, firstn_1_skipn.
  destruct (nth_error array j) eqn:Hnth; [reflexivity|].
  apply nth_error_None in Hnth. lia.
Qed.

(** X3: The first chunk is the first [size] elements, and the chunks after it
    are the chunks of the rest of the array. *)
Theorem chunk_unfold (T : Type) (array : list T) (size : nat) :
  0 < size ->
  array <> [] ->
  exists rest,
    returns (skipn size array) (int size) rest /\
    returns array (int size) (firstn size array :: rest).
Proof.
  intros Hsize Hne.
  assert (Hn : 0 < length array) by (destruct array; [congruence|simpl; lia]).
  destruct (chunk_terminates (skipn size array) size Hsize) as [rest Hrest].
  exists rest. split; [eexists; exact Hrest|].
  destruct (chunk_shape _ size Hsize _ rest Hrest) as (Hc & Hl & Hnth).
  rewrite length_skipn in Hc, Hl.
  exists (S (length array)).
  apply has_shape_returns; [exact Hsize|].
  unfold has_shape. simpl length. repeat split.
  - nia.
  - intros _. destruct (Nat.eq_dec (length rest) 0) as [H0|H0]; [nia|].
    assert (Hr : 0 < length rest) by lia. specialize (Hl Hr). nia.
  - intros [|j] Hj; [reflexivity|].
    simpl nth_error. rewrite Hnth by lia. rewrite skipn_skipn.
    do 3 f_equal. lia.
Qed.

Lemma chunk_unfold_witness :
  exists rest,
    returns (skipn 2 [1; 2; 3; 4; 5]) (int 2) rest /\
    returns [1; 2; 3; 4; 5] (int 2) (firstn 2 [1; 2; 3; 4; 5] :: rest).
Proof.
  apply (chunk_unfold nat [1; 2; 3; 4; 5] 2); [lia|discriminate].
Defined.

(** X4: Chunking an array whose length is a multiple of [size], followed by a
    second array, is chunking each and appending the results. *)
Theorem chunk_app (T : Type) (l1 l2 : list T) (size k : nat) :
  0 < size ->
  length l1 = k * size ->
  exists r1 r2,
    returns l1 (int size) r1 /\
    returns l2 (int size) r2 /\
    returns (l1 ++ l2) (int size) (r1 ++ r2).
Proof.
  intros Hsize Hk.
  destruct (chunk_terminates l1 size Hsize) as [r1 Hr1].
  destruct (chunk_terminates l2 size Hsize) as [r2 Hr2].
  exists r1, r2.
  split; [eexists; exact Hr1|]. split; [eexists; exact Hr2|].
  destruct (chunk_shape _ size Hsize _ r1 Hr1) as (Hc1 & Hl1 & Hn1).
  destruct (chunk_shape _ size Hsize _ r2 Hr2) as (Hc2 & Hl2 & Hn2).
  assert (Hlen1 : length r1 = k).
  { destruct (Nat.eq_dec (length r1) 0) as [H0|H0]; [nia|].
    assert (Hr : 0 < length r1) by lia. specialize (Hl1 Hr). nia. }
  exists (S (length (l1 ++ l2))).
  apply has_shape_returns; [exact Hsize|].
  unfold has_shape. rewrite !length_app. repeat split.
  - nia.
  - intros Hpos.
    destruct (Nat.eq_dec (length r2) 0) as [H0|H0].
    + assert (Hr : 0 < length r1) by lia. specialize (Hl1 Hr). nia.
    + assert (Hr : 0 < length r2) by lia. specialize (Hl2 Hr). nia.
  - intros j Hj.
    destruct (Nat.lt_ge_cases j (length r1)) as [Hj1|Hj1].
    + rewrite nth_error_app1, Hn1 by lia. f_equal.
      rewrite skipn_app, firstn_app, length_skipn.
      replace (size - (length l1 - j * size)) with 0 by nia.
      now rewrite firstn_0, app_nil_r.
    + rewrite nth_error_app2, Hn2 by lia. f_equal.
      rewrite skipn_app.
      rewrite (skipn_all2 l1) by nia. simpl.
      do 2 f_equal. nia.
Qed.

Lemma chunk_app_witness :
  exists r1 r2,
    returns [1; 2; 3; 4] (int 2) r1 /\
    returns [5; 6; 7] (int 2) r2 /\
    returns ([1; 2; 3; 4] ++ [5; 6; 7]) (int 2) (r1 ++ r2).
Proof.
  apply (chunk_app nat [1; 2; 3; 4] [5; 6; 7] 2 2); [lia|reflexivity].
Defined.

(** * items/add.ts: what is sent *)

(** ** Objects *)

Lemma object_get_set (k k' : String.string) (v : value) (o : object) :
  object_get k (object_set k' v o) =
  if String.eqb k' k then Some v else object_get k o.
Proof.
  induction o as [|[k0 v0] o IH]; simpl.
  - destruct (String.eqb k' k); reflexivity.
  - destruct (String.eqb_spec k0 k') as [->|Hne]; simpl.
    + destruct (String.eqb k' k); reflexivity.
    + rewrite IH.
      destruct (String.eqb_spec k0 k) as [->|Hne'].
      * destruct (String.eqb_spec k' k) as [->|_]; [congruence|reflexivity].
      * reflexivity.
Qed.

Lemma object_get_In (k : String.string) (v : value) (o : object) :
  object_get k o = Some v -> In k (map fst o).
Proof.
  induction o as [|[k0 v0] o IH]; simpl; [discriminate|].
  destruct (String.eqb_spec k0 k) as [->|_]; [now left|].
  intros Hget. right. now apply IH.
Qed.

(** A property of the source wins over one of the target. *)
Lemma object_get_spread (k : String.string) (target src : object) :
  well_formed src ->
  object_get k (object_spread target (Some src)) =
  match object_get k src with
  | Some v => Some v
  | None => object_get k target
  end.
Proof.
  unfold well_formed, object_spread. revert target.
  induction src as [|[k0 v0] src IH]; intros target Hwf; [reflexivity|].
  simpl in *. inversion Hwf as [|? ? Hnotin Hwf']; subst.
  rewrite IH by assumption. rewrite object_get_set.
  destruct (object_get k src) as [v|] eqn:Hget.
  - apply object_get_In in Hget.
    destruct (String.eqb_spec k0 k) as [->|_]; [contradiction|reflexivity].
  - destruct (String.eqb k0 k); reflexivity.
Qed.

Lemma keys_object_set (k : String.string) (v : value) (o : object) :
  map fst (object_set k v o) =
  if in_dec String.string_dec k (map fst o) then map fst o
  else map fst o ++ [k].
Proof.
  induction o as [|[k0 v0] o IH]; simpl; [reflexivity|].
  destruct (String.eqb_spec k0 k) as [->|Hne]; simpl.
  - destruct (String.string_dec k k); [reflexivity|congruence].
  - rewrite IH.
    destruct (String.string_dec k0 k) as [Heq|Hne']; [congruence|].
    destruct (in_dec String.string_dec k (map fst o)); reflexivity.
Qed.

Lemma well_formed_set (k : String.string) (v : value) (o : object) :
  well_formed o -> well_formed (object_set k v o).
Proof.
  unfold well_formed. intros Hwf. rewrite keys_object_set.
  destruct (in_dec String.string_dec k (map fst o)) as [_|Hnotin];
    [exact Hwf|].
  apply NoDup_app; repeat split; try assumption.
  - constructor; [intros []|constructor].
  - intros x Hx [<-|[]]. contradiction.
Qed.

Lemma well_formed_spread (target : object) (source : option object) :
  well_formed target -> well_formed (object_spread target source).
Proof.
  destruct source as [src|]; [|trivial]. simpl. revert target.
  induction src as [|[k0 v0] src IH]; intros target Hwf; [exact Hwf|].
  simpl. apply IH. now apply well_formed_set.
Qed.

Lemma well_formed_nil : well_formed [].
Proof. constructor. Qed.

(** ** The three functions *)

Local Open Scope string_scope.

Section AddProperties.

Variable Other : Type.
Variable getPortalUrl : requestOptions Other -> option String.string.
Variable determineOwner : requestOptions Other -> option String.string.

(** The params after [requestOptions.params = { defaults, ...params }]. *)
Lemma param_spread (k : String.string) (o : requestOptions Other)
      (defaults : object) :
  params_well_formed o ->
  param k (set_params o (object_spread defaults (params o))) =
  match param k o with
  | Some v => Some v
  | None => object_get k defaults
  end.
Proof.
  unfold params_well_formed, param. simpl.
  destruct (params o) as [p|]; [|reflexivity].
  intros Hwf. now apply object_get_spread.
Qed.

Lemma params_well_formed_spread (o : requestOptions Other) (defaults : object) :
  well_formed defaults ->
  params_well_formed (set_params o (object_spread defaults (params o))).
Proof.
  intros Hwf. unfold params_well_formed. simpl.
  now apply well_formed_spread.
Qed.

(** X7: [addItemJsonData] sends every param of the caller as it is, and the
    data under [text] unless the caller's params have a [text] already; it
    sends nothing else. *)
Theorem addItemJsonData_params (o o' : requestOptions Other)
        (url : String.string) :
  params_well_formed o ->
  addItemJsonData getPortalUrl determineOwner o = (Requested url, o') ->
  forall k,
    param k o' =
    match param k o with
    | Some v => Some v
    | None => if String.eqb k "text" then Some (data o) else None
    end.
Proof.
  intros Hwf Hcall k. unfold addItemJsonData in Hcall.
  destruct (determineOwner o); [|discriminate].
  destruct (getPortalUrl o); [|discriminate].
  injection Hcall as _ <-.
  rewrite param_spread by assumption. simpl.
  now rewrite String.eqb_sym.
Qed.

(** X8: [addItemData] sends every param of the caller as it is, and the data
    under [file] unless the caller's params have a [file] already; it sends
    nothing else. *)
Theorem addItemData_params (o o' : requestOptions Other)
        (url : String.string) :
  params_well_formed o ->
  addItemData getPortalUrl determineOwner o = (Requested url, o') ->
  forall k,
    param k o' =
    match param k o with
    | Some v => Some v
    | None => if String.eqb k "file" then Some (data o) else None
    end.
Proof.
  intros Hwf Hcall k. unfold addItemData in Hcall.
  destruct (determineOwner o); [|discriminate].
  destruct (getPortalUrl o); [|discriminate].
  injection Hcall as _ <-.
  rewrite param_spread by assumption. simpl.
  now rewrite String.eqb_sym.
Qed.

(** X9: [addItemResource] sends every param of the caller as it is and, where
    the caller's params do not have the key, the resource under [file], the
    name under [fileName], the content under [text], and under [access] the
    string [private] when [requestOptions.private] is true and [inherit]
    when it is false or absent; it sends nothing else. *)
Theorem addItemResource_params (o o' : requestOptions Other)
        (url : String.string) :
  params_well_formed o ->
  addItemResource getPortalUrl determineOwner o = (Requested url, o') ->
  forall k,
    param k o' =
    match param k o with
    | Some v => Some v
    | None =>
        if String.eqb k "file" then Some (resource o)
        else if String.eqb k "fileName" then Some (name o)
        else if String.eqb k "text" then Some (content o)
        else if String.eqb k "access" then
          Some (string_value
                  (match private o with
                   | Some true => "private"
                   | _ => "inherit"
                   end))
        else None
    end.
Proof.
  intros Hwf Hcall k. unfold addItemResource in Hcall.
  destruct (determineOwner o); [|discriminate].
  destruct (getPortalUrl o); [|discriminate].
  injection Hcall as _ <-.
  rewrite param_spread by assumption.
  destruct (param k o); [reflexivity|].
  cbn [object_get]. rewrite !(String.eqb_sym k).
  destruct (String.eqb "file" k) eqn:Hfile.
  - apply String.eqb_eq in Hfile. subst k. reflexivity.
  - destruct (String.eqb "fileName" k) eqn:Hname.
    + apply String.eqb_eq in Hname. subst k. reflexivity.
    + destruct (String.eqb "text" k) eqn:Htext.
      * apply String.eqb_eq in Htext. subst k. reflexivity.
      * destruct (String.eqb "access" k); [|reflexivity].
        unfold access. destruct (private o) as [[|]|]; reflexivity.
Qed.

End AddProperties.

Example addItemResource_example :
  addItemResource example_portal example_owner example_options =
  (Requested "https://www.arcgis.com/sharing/rest/content/users/jsmith/items/3ef/addResources",
   set_params example_options
     [("file", reference 2); ("fileName", string_value "bigkahuna.jpg");
      ("text", undefined); ("access", string_value "private");
      ("f", string_value "json")]).
Proof. reflexivity. Qed.

Lemma example_options_well_formed : params_well_formed example_options.
Proof.
  unfold params_well_formed, well_formed. simpl.
  constructor; [intros []|constructor].
Defined.

Lemma addItemJsonData_params_witness :
  param "text"
    (snd (addItemJsonData example_portal example_owner example_options)) =
  Some (reference 1).
Proof.
  apply (addItemJsonData_params unit example_portal example_owner
           example_options _
           "https://www.arcgis.com/sharing/rest/content/users/jsmith/items/3ef/update").
  - exact example_options_well_formed.
  - reflexivity.
Defined.

Lemma addItemData_params_witness :
  param "file"
    (snd (addItemData example_portal example_owner example_options)) =
  Some (reference 1).
Proof.
  apply (addItemData_params unit example_portal example_owner
           example_options _
           "https://www.arcgis.com/sharing/rest/content/users/jsmith/items/3ef/update").
  - exact example_options_well_formed.
  - reflexivity.
Defined.

Lemma addItemResource_params_witness :
  param "access"
    (snd (addItemResource example_portal example_owner example_options)) =
  Some (string_value "private").
Proof.
  apply (addItemResource_params unit example_portal example_owner
           example_options _
           "https://www.arcgis.com/sharing/rest/content/users/jsmith/items/3ef/addResources").
  - exact example_options_well_formed.
  - reflexivity.
Defined.

(** ** Calls in sequence on one options object *)

Section AddSequences.

Variable Other : Type.
Variable getPortalUrl : requestOptions Other -> option String.string.
Variable determineOwner : requestOptions Other -> option String.string.

Lemma addItemJsonData_cases (o : requestOptions Other) :
  addItemJsonData getPortalUrl determineOwner o = (Thrown, o) \/
  exists url,
    addItemJsonData getPortalUrl determineOwner o =
    (Requested url,
     set_params o (object_spread [("text", data o)] (params o))).
Proof.
  unfold addItemJsonData.
  destruct (determineOwner o); [|now left].
  destruct (getPortalUrl o); [|now left].
  right. eexists. reflexivity.
Qed.

Lemma addItemData_cases (o : requestOptions Other) :
  addItemData getPortalUrl determineOwner o = (Thrown, o) \/
  exists url,
    addItemData getPortalUrl determineOwner o =
    (Requested url,
     set_params o (object_spread [("file", data o)] (params o))).
Proof.
  unfold addItemData.
  destruct (determineOwner o); [|now left].
  destruct (getPortalUrl o); [|now left].
  right. eexists. reflexivity.
Qed.

Lemma addItemResource_cases (o : requestOptions Other) :
  addItemResource getPortalUrl determineOwner o = (Thrown, o) \/
  exists url,
    addItemResource getPortalUrl determineOwner o =
    (Requested url,
     set_params o
       (object_spread
          [("file", resource o); ("fileName", name o); ("text", content o);
           ("access", access o)]
          (params o))).
Proof.
  unfold addItemResource.
  destruct (determineOwner o); [|now left].
  destruct (getPortalUrl o); [|now left].
  right. eexists. reflexivity.
Qed.

(** Spreading the same defaults a second time changes no param. *)
Lemma param_respread (k : String.string) (o : requestOptions Other)
      (defaults : object) :
  params_well_formed o ->
  well_formed defaults ->
  let o1 := set_params o (object_spread defaults (params o)) in
  param k (set_params o1 (object_spread defaults (params o1))) = param k o1.
Proof.
  intros Hwf Hdef o1.
  rewrite (param_spread Other k o1 defaults)
    by (apply params_well_formed_spread; exact Hdef).
  destruct (param k o1) as [v|] eqn:H1; [reflexivity|].
  unfold o1 in H1. rewrite param_spread in H1 by exact Hwf.
  destruct (param k o); [discriminate|exact H1].
Qed.

(** X10: The options object keeps what a call put into it: [addItemData] on the
    object that [addItemJsonData] was called with sends the data twice, under
    [text] as well as under [file] (where the caller's params have neither
    key). *)
Theorem addItemData_after_addItemJsonData (o o1 o2 : requestOptions Other)
        (url1 url2 : String.string) :
  params_well_formed o ->
  addItemJsonData getPortalUrl determineOwner o = (Requested url1, o1) ->
  addItemData getPortalUrl determineOwner o1 = (Requested url2, o2) ->
  forall k,
    param k o2 =
    match param k o with
    | Some v => Some v
    | None =>
        if String.eqb k "text" || String.eqb k "file"
        then Some (data o) else None
    end.
Proof.
  intros Hwf H1 H2 k.
  destruct (addItemJsonData_cases o) as [Hthrown|[u1 Hreq]];
    [congruence|].
  assert (E1 : o1 = set_params o (object_spread [("text", data o)] (params o)))
    by congruence.
  subst o1.
  destruct (addItemData_cases
              (set_params o (object_spread [("text", data o)] (params o))))
    as [Hthrown|[u2 Hreq2]]; [congruence|].
  set (o1 := set_params o (object_spread [("text", data o)] (params o))) in *.
  assert (E2 : o2 = set_params o1 (object_spread [("file", data o1)] (params o1)))
    by congruence.
  subst o2.
  rewrite param_spread
    by (apply params_well_formed_spread; unfold well_formed; simpl;
        constructor; [intros []|constructor]).
  unfold o1 at 1. rewrite param_spread by exact Hwf.
  destruct (param k o); [reflexivity|].
  cbn [object_get data set_params o1].
  rewrite !(String.eqb_sym k).
  destruct (String.eqb "text" k); [reflexivity|].
  destruct (String.eqb "file" k); reflexivity.
Qed.

(** X11: A second call of the same function on the options object it was called
    with changes no param: what the first call put there is what the second
    would put. *)
Theorem add_again_same_params (o : requestOptions Other) :
  params_well_formed o ->
  forall k,
    (param k (snd (addItemJsonData getPortalUrl determineOwner
                     (snd (addItemJsonData getPortalUrl determineOwner o)))) =
     param k (snd (addItemJsonData getPortalUrl determineOwner o))) /\
    (param k (snd (addItemData getPortalUrl determineOwner
                     (snd (addItemData getPortalUrl determineOwner o)))) =
     param k (snd (addItemData getPortalUrl determineOwner o))) /\
    (param k (snd (addItemResource getPortalUrl determineOwner
                     (snd (addItemResource getPortalUrl determineOwner o)))) =
     param k (snd (addItemResource getPortalUrl determineOwner o))).
Proof.
  intros Hwf k. split; [|split].
  - destruct (addItemJsonData_cases o) as [H1|[u1 H1]]; rewrite H1; simpl snd.
    + now rewrite H1.
    + destruct (addItemJsonData_cases
                  (set_params o (object_spread [("text", data o)] (params o))))
        as [H2|[u2 H2]]; rewrite H2; simpl snd; [reflexivity|].
      apply (param_respread k o [("text", data o)] Hwf).
      unfold well_formed. simpl. constructor; [intros []|constructor].
  - destruct (addItemData_cases o) as [H1|[u1 H1]]; rewrite H1; simpl snd.
    + now rewrite H1.
    + destruct (addItemData_cases
                  (set_params o (object_spread [("file", data o)] (params o))))
        as [H2|[u2 H2]]; rewrite H2; simpl snd; [reflexivity|].
      apply (param_respread k o [("file", data o)] Hwf).
      unfold well_formed. simpl. constructor; [intros []|constructor].
  - destruct (addItemResource_cases o) as [H1|[u1 H1]]; rewrite H1; simpl snd.
    + now rewrite H1.
    + destruct (addItemResource_cases
                  (set_params o
                     (object_spread
                        [("file", resource o); ("fileName", name o);
                         ("text", content o); ("access", access o)]
                        (params o))))
        as [H2|[u2 H2]]; rewrite H2; simpl snd; [reflexivity|].
      apply (param_respread k o
               [("file", resource o); ("fileName", name o);
                ("text", content o); ("access", access o)] Hwf).
      unfold well_formed. simpl.
      repeat (constructor; [simpl; intuition discriminate|]). constructor.
Qed.

End AddSequences.

Lemma addItemData_after_addItemJsonData_witness :
  param "text"
    (snd (addItemData example_portal example_owner
            (snd (addItemJsonData example_portal example_owner
                    example_options)))) =
  Some (reference 1).
Proof.
  apply (addItemData_after_addItemJsonData unit example_portal example_owner
           example_options
           (snd (addItemJsonData example_portal example_owner example_options))
           (snd (addItemData example_portal example_owner
                   (snd (addItemJsonData example_portal example_owner
                           example_options))))
           "https://www.arcgis.com/sharing/rest/content/users/jsmith/items/3ef/update"
           "https://www.arcgis.com/sharing/rest/content/users/jsmith/items/3ef/update").
  - exact example_options_well_formed.
  - reflexivity.
  - reflexivity.
Defined.

Lemma add_again_same_params_witness :
  param "text"
    (snd (addItemJsonData example_portal example_owner
            (snd (addItemJsonData example_portal example_owner
                    example_options)))) =
  param "text"
    (snd (addItemJsonData example_portal example_owner example_options)).
Proof.
  apply (add_again_same_params unit example_portal example_owner
           example_options example_options_well_formed "text").
Defined.
